(** * CRC32 test-vector generator: embedding of [generate_test_vectors.c]

    The C file keeps one global, [uint32_t crc32_table[256]], which
    [init_crc32_table] fills and [calculate_crc32] reads.  The embedding
    threads that array through a small state-and-error monad; an access
    outside an array is the only way a computation can fail. *)

From Stdlib Require Import ZArith List Lia.
From Stdlib.Strings Require Import Byte Ascii.
From Stdlib Require String DecimalString.
From stdpp Require Import base option list.

Local Open Scope Z_scope.

(** ** 32-bit unsigned arithmetic *)

Module U32.

Definition modulus : Z := 2 ^ 32.
Definition max : Z := 0xFFFFFFFF.

(* conversion to uint32_t *)
Definition wrap (x : Z) : Z := x mod modulus.
(* unary minus on uint32_t *)
Definition neg (x : Z) : Z := wrap (- x).
(* ~x on uint32_t *)
Definition not (x : Z) : Z := wrap (Z.lnot x).

Definition in_range (x : Z) : Prop := 0 <= x < modulus.

End U32.

(* value of a uint8_t after promotion *)
Definition byte_val (b : byte) : Z := Z.of_N (Byte.to_N b).

(** ** The global table and the monad threading it *)

Module Mem.

(* contents of crc32_table *)
Abbreviation table := (list Z) (only parsing).

Definition M (A : Type) : Type := table -> option (A * table).

Definition ret {A} (a : A) : M A := fun t => Some (a, t).
Definition bind {A B} (m : M A) (k : A -> M B) : M B :=
  fun t => match m t with
           | Some (a, t') => k a t'
           | None => None
           end.

(* crc32_table[i] as an rvalue *)
Definition load (i : Z) : M Z :=
  fun t => if decide (0 <= i)
           then match t !! Z.to_nat i with
                | Some v => Some (v, t)
                | None => None
                end
           else None.

(* crc32_table[i] = v *)
Definition store (i v : Z) : M unit :=
  fun t => if decide (0 <= i < Z.of_nat (length t))
           then Some (tt, <[Z.to_nat i := v]> t)
           else None.

(* data[i] for a caller-owned buffer of uint8_t *)
Definition load_u8 (data : list byte) (i : nat) : M Z :=
  fun t => match data !! i with
           | Some b => Some (byte_val b, t)
           | None => None
           end.

(* static storage is zero-initialised *)
Definition initial : table := replicate 256 0.

End Mem.

Declare Scope mem_scope.
Delimit Scope mem_scope with mem.
Notation "'let!' x ':=' m 'in' k" := (Mem.bind m (fun x => k))
  (at level 10, x name, m at level 100, k at level 200) : mem_scope.
Notation "'do!' m 'in' k" := (Mem.bind m (fun _ => k))
  (at level 10, m at level 100, k at level 200) : mem_scope.

(** ** The program *)

Definition POLY : Z := 0xEDB88320.

(* crc = (crc >> 1) ^ (0xEDB88320 & -(crc & 1)); *)
Definition crc_step (crc : Z) : Z :=
  Z.lxor (Z.shiftr crc 1) (Z.land POLY (U32.neg (Z.land crc 1))).

(* for (int j = 0; j < 8; j++) crc = ...; *)
Fixpoint crc_bits (j : nat) (crc : Z) : Z :=
  match j with
  | O => crc
  | S j' => crc_bits j' (crc_step crc)
  end.

(* body of the outer loop of init_crc32_table *)
Definition init_body (i : Z) : Mem.M unit :=
  let crc := U32.wrap i in
  let crc := crc_bits 8 crc in
  Mem.store i crc.

(* for (int i = ...; i < ...; i++) with [n] iterations left *)
Fixpoint init_loop (n : nat) (i : Z) : Mem.M unit :=
  match n with
  | O => Mem.ret tt
  | S n' => (do! init_body i in init_loop n' (i + 1))%mem
  end.

Definition init_crc32_table : Mem.M unit := init_loop 256 0.

(* (crc ^ data[i]) & 0xFF *)
Definition table_index (crc b : Z) : Z := Z.land (Z.lxor crc b) 0xFF.

(* for (size_t i = ...; i < len; i++) with [n] = len - i iterations left *)
Fixpoint crc32_loop (data : list byte) (n : nat) (i : nat) (crc : Z) : Mem.M Z :=
  match n with
  | O => Mem.ret crc
  | S n' =>
      (let! b := Mem.load_u8 data i in
       let! e := Mem.load (table_index crc b) in
       crc32_loop data n' (S i) (Z.lxor (Z.shiftr crc 8) e))%mem
  end.

Definition calculate_crc32 (data : list byte) (len : nat) : Mem.M Z :=
  (let! crc := crc32_loop data len 0 U32.max in
   Mem.ret (U32.not crc))%mem.

Definition generate_hamming (data : Z) : Z :=
  let encoded := 0 in
  encoded.

(* (uint8_t* )&test_data[i] on the little-endian target of main *)
Definition bytes_of_u32 (x : Z) : list byte :=
  map (fun k => match Byte.of_N (Z.to_N (Z.land (Z.shiftr x (8 * k)) 0xFF)) with
                | Some b => b
                | None => x00
                end) [0; 1; 2; 3].

(* the call sequence of main: build the table, then checksum one word *)
Definition main_crc (x : Z) : Mem.M Z :=
  (do! init_crc32_table in calculate_crc32 (bytes_of_u32 x) 4)%mem.

(* main's call sequence for a buffer of any length, from program start *)
Definition crc32_of (data : list byte) : option Z :=
  fst <$> (do! init_crc32_table in calculate_crc32 data (length data))%mem Mem.initial.

(* what the type uint32_t[256] guarantees of the global *)
Definition table_ok (t : Mem.table) : Prop :=
  length t = 256%nat /\ Forall U32.in_range t.

#[global] Instance in_range_dec x : Decision (U32.in_range x).
Proof. unfold U32.in_range. apply _. Defined.

#[global] Instance table_ok_dec t : Decision (table_ok t).
Proof. unfold table_ok. apply _. Defined.

(* the ASCII digits 1 to 9, the usual check input of a CRC *)
Definition check_input : list byte := [x31; x32; x33; x34; x35; x36; x37; x38; x39].

(* contents of crc32_table once init_crc32_table has returned *)
Definition crc32_table : Mem.table :=
  (fun k => crc_bits 8 (U32.wrap (Z.of_nat k))) <$> seq 0 256.

(** ** The algorithms as the specification words them *)

Module Spec.

(* if the low bit is set, (crc >> 1) XOR polynomial, else crc >> 1 *)
Definition step (poly crc : Z) : Z :=
  if Z.testbit crc 0 then Z.lxor (Z.shiftr crc 1) poly else Z.shiftr crc 1.

(* crc = i, then exactly 8 iterations *)
Definition entry (i : Z) : Z := Nat.iter 8 (step POLY) i.

(* accumulator = (accumulator >> 8) XOR table[(accumulator XOR b) & 0xFF] *)
Definition update (table : list Z) (acc b : Z) : Z :=
  Z.lxor (Z.shiftr acc 8) (nth (Z.to_nat (Z.land (Z.lxor acc b) 0xFF)) table 0).

(* the accumulator after the bytes of [data], in order *)
Definition accumulate (table : list Z) (acc : Z) (data : list byte) : Z :=
  fold_left (update table) (map byte_val data) acc.

(* complement of the final accumulator, masked to 32 bits *)
Definition checksum (table : list Z) (data : list byte) : Z :=
  Z.land (Z.lnot (accumulate table 0xFFFFFFFF data)) 0xFFFFFFFF.

End Spec.

(** ** The binary rendering in main *)

(* the characters that fprintf(fp, "%d", v) writes *)
Definition print_d (v : Z) : list ascii :=
  String.list_ascii_of_string (DecimalString.NilZero.string_of_int (Z.to_int v)).

(* for (int j = ...; j >= 0; j--) { fprintf(fp, "%d", (x >> j) & 1);
   if (j % 8 == 0) fprintf(fp, " "); }  with [n] = j + 1 iterations left *)
Fixpoint binary_loop (n : nat) (x : Z) : list ascii :=
  match n with
  | O => []
  | S n' =>
      let j := Z.of_nat n' in
      print_d (Z.land (Z.shiftr x j) 1) ++
      (if Z.rem j 8 =? 0 then [" "%char] else []) ++
      binary_loop n' x
  end.

(* what main writes after "  Binary:   " for the word [x] *)
Definition binary_digits (x : Z) : list ascii := binary_loop 32 x.

(** ** Formulations used to state further properties *)

(* reading binary digits back, most significant first; any other
   character is skipped *)
Definition read_digit (acc : Z) (c : ascii) : Z :=
  if Ascii.eqb c "0" then 2 * acc
  else if Ascii.eqb c "1" then 2 * acc + 1
  else acc.

Definition read_binary (s : list ascii) : Z := fold_left read_digit s 0.

(* one byte of the checksum done bit by bit: the byte is XORed into the
   accumulator and the shift-and-xor step of init_crc32_table runs 8 times *)
Definition bitwise_update (acc : Z) (b : byte) : Z :=
  crc_bits 8 (Z.lxor acc (byte_val b)).

(* the checksum without the table *)
Definition crc32_bitwise (data : list byte) : Z :=
  U32.not (fold_left bitwise_update data U32.max).

(* the byte whose value is [v], for 0 <= v <= 255 *)
Definition byte_of_val (v : Z) : byte :=
  match Byte.of_N (Z.to_N v) with
  | Some b => b
  | None => x00
  end.

(* XOR of two bytes, and of two buffers position by position *)
Definition byte_xor (a b : byte) : byte :=
  byte_of_val (Z.lxor (byte_val a) (byte_val b)).

Definition xor_bytes (a b : list byte) : list byte := zip_with byte_xor a b.

(* equalities of bitwise expressions, bit by bit *)
Ltac bits n :=
  apply Z.bits_inj'; intros n ?;
  repeat first [ rewrite Z.lxor_spec | rewrite Z.land_spec
               | rewrite Z.shiftr_spec by lia | rewrite Z.bits_0 ].

Ltac xor_bits :=
  let n := fresh "n" in
  bits n; repeat destruct (Z.testbit _ _); reflexivity.

(** ** Arithmetic on 32-bit values *)

Section Arith.

Lemma lxor_bound n a b :
  0 <= n -> 0 <= a < 2 ^ n -> 0 <= b < 2 ^ n -> 0 <= Z.lxor a b < 2 ^ n.
Proof.
  intros Hn Ha Hb.
  assert (H0 : 0 <= Z.lxor a b) by (apply Z.lxor_nonneg; lia).
  split; [exact H0|].
  destruct (Z.eq_dec (Z.lxor a b) 0) as [->|Hne]; [lia|].
  assert (Hpos : 0 < n).
  { destruct (Z.eq_dec n 0) as [->|]; [|lia].
    change (2 ^ 0) with 1 in *.
    assert (a = 0) as -> by lia. assert (b = 0) as -> by lia. now elim Hne. }
  apply Z.log2_lt_pow2; [lia|].
  eapply Z.le_lt_trans; [apply Z.log2_lxor; lia|].
  apply Z.max_lub_lt.
  - destruct (Z.eq_dec a 0) as [->|]; [simpl; lia|]. apply Z.log2_lt_pow2; lia.
  - destruct (Z.eq_dec b 0) as [->|]; [simpl; lia|]. apply Z.log2_lt_pow2; lia.
Qed.

Lemma shiftr_bound a k :
  0 <= k -> U32.in_range a -> U32.in_range (Z.shiftr a k).
Proof.
  unfold U32.in_range, U32.modulus. intros Hk [Ha Hb].
  rewrite Z.shiftr_div_pow2 by lia. split.
  - apply Z.div_pos; lia.
  - eapply Z.le_lt_trans; [|exact Hb].
    apply Z.div_le_upper_bound; [lia|]. nia.
Qed.

Lemma lxor_in_range a b :
  U32.in_range a -> U32.in_range b -> U32.in_range (Z.lxor a b).
Proof. unfold U32.in_range, U32.modulus. apply lxor_bound. lia. Qed.

Lemma wrap_in_range x : U32.in_range (U32.wrap x).
Proof. unfold U32.in_range, U32.wrap, U32.modulus. apply Z.mod_pos_bound. lia. Qed.

Lemma wrap_small x : U32.in_range x -> U32.wrap x = x.
Proof. unfold U32.in_range, U32.wrap. intros. apply Z.mod_small. lia. Qed.

Lemma not_sub x : U32.in_range x -> U32.not x = U32.max - x.
Proof.
  unfold U32.in_range, U32.not, U32.wrap, U32.max, U32.modulus. intros H.
  change (2 ^ 32) with 4294967296 in *. unfold Z.lnot, Z.pred.
  symmetry. apply Z.mod_unique with (q := -1); lia.
Qed.

Lemma not_in_range x : U32.in_range (U32.not x).
Proof. apply wrap_in_range. Qed.

Lemma not_involutive x : U32.in_range x -> U32.not (U32.not x) = x.
Proof.
  intros H. rewrite (not_sub (U32.not x)) by apply not_in_range.
  rewrite not_sub by exact H. lia.
Qed.

(* the C complement and the masked complement of the specification agree *)
Lemma not_masked x : U32.not x = Z.land (Z.lnot x) 0xFFFFFFFF.
Proof.
  unfold U32.not, U32.wrap, U32.modulus.
  change 0xFFFFFFFF with (Z.ones 32). now rewrite Z.land_ones by lia.
Qed.

Lemma table_index_range crc b : 0 <= table_index crc b <= 255.
Proof.
  unfold table_index. change 0xFF with (Z.ones 8).
  rewrite Z.land_ones by lia. change (2 ^ 8) with 256. change (Z.ones 8) with 255.
  pose proof (Z.mod_pos_bound (Z.lxor crc b) 256). lia.
Qed.

End Arith.

(** ** The table builder *)

Section TableBuilder.

Lemma land_1_b2z crc : Z.land crc 1 = Z.b2z (Z.testbit crc 0).
Proof.
  change 1 with (Z.ones 1) at 1. rewrite Z.land_ones by lia.
  change (2 ^ 1) with 2. symmetry. apply Z.bit0_mod.
Qed.

(* the branchless update is the conditional one *)
Lemma crc_step_conditional crc : crc_step crc = Spec.step POLY crc.
Proof.
  unfold crc_step, Spec.step. rewrite land_1_b2z.
  destruct (Z.testbit crc 0); simpl Z.b2z.
  - reflexivity.
  - change (Z.land POLY (U32.neg 0)) with 0. apply Z.lxor_0_r.
Qed.

Lemma crc_bits_iter j crc : crc_bits j crc = Nat.iter j (Spec.step POLY) crc.
Proof.
  revert crc. induction j as [|j IH]; intros crc; [reflexivity|].
  cbn [crc_bits]. rewrite IH, crc_step_conditional.
  symmetry. apply Nat.iter_succ_r.
Qed.

Lemma crc_step_in_range crc : U32.in_range crc -> U32.in_range (crc_step crc).
Proof.
  intros H. rewrite crc_step_conditional. unfold Spec.step.
  destruct (Z.testbit crc 0).
  - apply lxor_in_range; [apply shiftr_bound; [lia|exact H]|].
    unfold U32.in_range, U32.modulus, POLY. lia.
  - apply shiftr_bound; [lia|exact H].
Qed.

Lemma crc_bits_in_range j crc : U32.in_range crc -> U32.in_range (crc_bits j crc).
Proof.
  revert crc. induction j as [|j IH]; intros crc H; [exact H|].
  cbn [crc_bits]. apply IH, crc_step_in_range, H.
Qed.

Lemma crc32_table_lookup (k : nat) :
  crc32_table !! k =
  if decide (k < 256)%nat then Some (crc_bits 8 (U32.wrap (Z.of_nat k))) else None.
Proof.
  unfold crc32_table. rewrite list_lookup_fmap.
  destruct (decide (k < 256)%nat) as [Hk|Hk].
  - now rewrite lookup_seq_lt by exact Hk.
  - now rewrite lookup_seq_ge by lia.
Qed.

Lemma crc32_table_length : length crc32_table = 256%nat.
Proof. reflexivity. Qed.

Lemma crc32_table_ok : table_ok crc32_table.
Proof.
  split; [reflexivity|]. apply Forall_lookup. intros k x Hx.
  rewrite crc32_table_lookup in Hx. destruct (decide (k < 256)%nat); [|discriminate].
  replace x with (crc_bits 8 (U32.wrap (Z.of_nat k))) by congruence.
  apply crc_bits_in_range, wrap_in_range.
Qed.

(* invariant of the outer loop: the slots i .. i+n-1 are overwritten,
   every other slot keeps its value *)
Lemma init_loop_spec n : forall (i : Z) (t : Mem.table),
  0 <= i -> i + Z.of_nat n <= Z.of_nat (length t) ->
  exists t', init_loop n i t = Some (tt, t') /\ length t' = length t /\
    forall k : nat, t' !! k =
      if decide (i <= Z.of_nat k < i + Z.of_nat n)
      then Some (crc_bits 8 (U32.wrap (Z.of_nat k))) else t !! k.
Proof.
  induction n as [|n IH]; intros i t Hi Hlen.
  - exists t. split; [reflexivity|]. split; [reflexivity|].
    intros k. destruct (decide _) as [Hk|_]; [lia|reflexivity].
  - cbn [init_loop]. unfold Mem.bind, init_body, Mem.store.
    destruct (decide (0 <= i < Z.of_nat (length t))) as [_|Hn]; [|lia].
    set (v := crc_bits 8 (U32.wrap i)).
    destruct (IH (i + 1) (<[Z.to_nat i := v]> t)) as (t' & Hrun & Hl & Hk).
    { lia. } { rewrite length_insert. lia. }
    exists t'. split; [exact Hrun|]. split; [now rewrite Hl, length_insert|].
    intros k. rewrite Hk.
    destruct (decide (i + 1 <= Z.of_nat k < i + 1 + Z.of_nat n)) as [H1|H1];
      destruct (decide (i <= Z.of_nat k < i + Z.of_nat (S n))) as [H2|H2];
      try reflexivity; try lia.
    + assert (k = Z.to_nat i) as -> by lia.
      rewrite list_lookup_insert_eq by lia. subst v. now rewrite Z2Nat.id by lia.
    + apply list_lookup_insert_ne. lia.
Qed.

(* whatever the array held before, init_crc32_table leaves crc32_table *)
Lemma init_crc32_table_run (t : Mem.table) :
  length t = 256%nat -> init_crc32_table t = Some (tt, crc32_table).
Proof.
  intros Ht. destruct (init_loop_spec 256 0 t) as (t' & Hrun & Hl & Hk); [lia|lia|].
  unfold init_crc32_table. rewrite Hrun. do 2 f_equal.
  apply list_eq. intros k. rewrite Hk, crc32_table_lookup.
  destruct (decide (0 <= Z.of_nat k < 0 + Z.of_nat 256)) as [H1|H1];
    destruct (decide (k < 256)%nat) as [H2|H2]; try reflexivity; try lia.
  apply lookup_ge_None. lia.
Qed.

Lemma crc32_table_entry (i : Z) :
  0 <= i <= 255 -> crc32_table !! Z.to_nat i = Some (Spec.entry i).
Proof.
  intros Hi. rewrite crc32_table_lookup.
  destruct (decide (Z.to_nat i < 256)%nat) as [_|Hn]; [|lia].
  rewrite Z2Nat.id by lia. rewrite wrap_small, crc_bits_iter; [reflexivity|].
  unfold U32.in_range, U32.modulus. lia.
Qed.

End TableBuilder.

(** ** The checksum computer *)

Section Checksum.

Lemma load_in_table (t : Mem.table) crc b :
  length t = 256%nat ->
  exists e, t !! Z.to_nat (table_index crc b) = Some e /\
            Mem.load (table_index crc b) t = Some (e, t).
Proof.
  intros Ht. pose proof (table_index_range crc b) as Hr.
  destruct (lookup_lt_is_Some_2 t (Z.to_nat (table_index crc b))) as [e He]; [lia|].
  exists e. split; [exact He|]. unfold Mem.load.
  destruct (decide (0 <= table_index crc b)) as [_|Hn]; [|lia].
  now rewrite He.
Qed.

(* the indexed loop over data[i .. i+n-1] is the left fold of the update *)
Lemma crc32_loop_spec (t : Mem.table) (data : list byte) n : forall i crc,
  length t = 256%nat -> (i + n <= length data)%nat ->
  crc32_loop data n i crc t = Some (Spec.accumulate t crc (take n (drop i data)), t).
Proof.
  induction n as [|n IH]; intros i crc Ht Hlen; [reflexivity|].
  destruct (lookup_lt_is_Some_2 data i) as [b Hb]; [lia|].
  destruct (load_in_table t crc (byte_val b) Ht) as (e & He & Hload).
  cbn [crc32_loop]. unfold Mem.bind at 1, Mem.load_u8. rewrite Hb.
  unfold Mem.bind at 1. rewrite Hload.
  rewrite IH by (trivial; lia).
  assert (Hup : Spec.update t crc (byte_val b) = Z.lxor (Z.shiftr crc 8) e).
  { unfold Spec.update. fold (table_index crc (byte_val b)).
    now rewrite (nth_lookup_Some t _ 0 e He). }
  rewrite (drop_S data b i Hb). cbn [take]. unfold Spec.accumulate.
  cbn [map fold_left]. now rewrite Hup.
Qed.

(* calculate_crc32 only reads the global *)
Lemma crc32_loop_state (data : list byte) n : forall i crc (t t' : Mem.table) c,
  crc32_loop data n i crc t = Some (c, t') -> t' = t.
Proof.
  induction n as [|n IH]; intros i crc t t' c H.
  - cbn in H. unfold Mem.ret in H. congruence.
  - cbn [crc32_loop] in H. unfold Mem.bind at 1, Mem.load_u8 in H.
    destruct (data !! i) as [b|]; [|discriminate].
    unfold Mem.bind at 1, Mem.load in H.
    destruct (decide (0 <= _)); [|discriminate].
    destruct (t !! _) as [e|]; [|discriminate].
    eapply IH, H.
Qed.

Lemma calculate_crc32_state (data : list byte) len (t t' : Mem.table) c :
  calculate_crc32 data len t = Some (c, t') -> t' = t.
Proof.
  unfold calculate_crc32, Mem.bind, Mem.ret. intros H.
  destruct (crc32_loop data len 0 U32.max t) as [[a t1]|] eqn:E; [|discriminate].
  apply crc32_loop_state in E. congruence.
Qed.

Lemma calculate_crc32_run (t : Mem.table) (data : list byte) len :
  length t = 256%nat -> (len <= length data)%nat ->
  calculate_crc32 data len t =
  Some (U32.not (Spec.accumulate t U32.max (take len data)), t).
Proof.
  intros Ht Hlen. unfold calculate_crc32, Mem.bind.
  rewrite crc32_loop_spec by (trivial; lia). reflexivity.
Qed.

Lemma update_in_range (t : Mem.table) acc b :
  Forall U32.in_range t -> U32.in_range acc -> U32.in_range (Spec.update t acc b).
Proof.
  intros Ht Hacc. unfold Spec.update.
  apply lxor_in_range; [apply shiftr_bound; [lia|exact Hacc]|].
  rewrite nth_lookup. destruct (t !! _) as [e|] eqn:E; cbn.
  - eapply Forall_lookup_1; eauto.
  - unfold U32.in_range, U32.modulus. lia.
Qed.

Lemma accumulate_in_range (t : Mem.table) data : forall acc,
  Forall U32.in_range t -> U32.in_range acc ->
  U32.in_range (Spec.accumulate t acc data).
Proof.
  unfold Spec.accumulate.
  induction data as [|b data IH]; intros acc Ht Hacc; [exact Hacc|].
  cbn [map fold_left]. apply IH; [exact Ht|]. now apply update_in_range.
Qed.

Lemma accumulate_app (t : Mem.table) d1 d2 acc :
  Spec.accumulate t acc (d1 ++ d2) = Spec.accumulate t (Spec.accumulate t acc d1) d2.
Proof. unfold Spec.accumulate. now rewrite map_app, fold_left_app. Qed.

Lemma max_in_range : U32.in_range U32.max.
Proof. unfold U32.in_range, U32.max, U32.modulus. lia. Qed.

End Checksum.

(** ** Sanity checks against published CRC-32 values *)

Example crc32_check_value : crc32_of check_input = Some 0xCBF43926.
Proof. vm_compute. reflexivity. Qed.

Example crc32_table_samples :
  crc32_table !! 1%nat = Some 0x77073096 /\ crc32_table !! 255%nat = Some 0x2D02EF8D.
Proof. split; vm_compute; reflexivity. Qed.

Example crc32_ff_word : fst <$> main_crc 0xFFFFFFFF Mem.initial = Some 0xFFFFFFFF.
Proof. vm_compute. reflexivity. Qed.

(** ** The claims *)

(** C1: for every byte sequence [data] of length [len],
    [calculate_crc32 data len] returns what the specification's algorithm
    gives: the accumulator starts at 0xFFFFFFFF, each byte in order sets it
    to [(acc >> 8) xor table[(acc xor b) & 0xFF]], and the result is its
    complement masked to 32 bits.  The table is left unchanged. *)
Theorem calculate_crc32_refines_checksum (t : Mem.table) (data : list byte) (len : nat) :
  length t = 256%nat -> len = length data ->
  calculate_crc32 data len t = Some (Spec.checksum t data, t).
Proof.
  intros Ht ->. rewrite calculate_crc32_run by (trivial; lia).
  rewrite firstn_all, not_masked. reflexivity.
Qed.

Lemma calculate_crc32_refines_checksum_witness :
  length crc32_table = 256%nat /\ 9%nat = length check_input /\
  calculate_crc32 check_input 9 crc32_table =
  Some (Spec.checksum crc32_table check_input, crc32_table).
Proof.
  split; [reflexivity|]. split; [reflexivity|].
  apply (calculate_crc32_refines_checksum crc32_table check_input 9); reflexivity.
Defined.

(** C2: for every index [i] from 0 to 255 the entry that
    [init_crc32_table] stores at [i] is the result of starting from
    [crc = i] and doing exactly 8 times: if the low bit of [crc] is set,
    [crc = (crc >> 1) xor 0xEDB88320], else [crc = crc >> 1]; the code's
    branchless update computes that conditional update. *)
Theorem init_crc32_table_entry (t : Mem.table) (i : Z) :
  length t = 256%nat -> 0 <= i <= 255 ->
  (forall crc, crc_step crc = Spec.step 0xEDB88320 crc) /\
  exists t', init_crc32_table t = Some (tt, t') /\
             t' !! Z.to_nat i = Some (Spec.entry i) /\
             U32.in_range (Spec.entry i).
Proof.
  intros Ht Hi. split; [exact crc_step_conditional|].
  exists crc32_table. split; [now apply init_crc32_table_run|].
  pose proof (crc32_table_entry i Hi) as He. split; [exact He|].
  destruct crc32_table_ok as [_ Hr]. exact (Forall_lookup_1 _ _ _ _ Hr He).
Qed.

Lemma init_crc32_table_entry_witness :
  length Mem.initial = 256%nat /\ 0 <= 128 <= 255 /\
  exists t', init_crc32_table Mem.initial = Some (tt, t') /\
             t' !! Z.to_nat 128 = Some (Spec.entry 128) /\
             U32.in_range (Spec.entry 128).
Proof.
  split; [reflexivity|]. split; [lia|].
  apply (init_crc32_table_entry Mem.initial 128); [reflexivity|lia].
Defined.

(** C3, as the specification states it, fails: the checksum of the four
    zero bytes of the word 0x00000000 is not 0xD202EF8D. *)
Lemma crc32_zero_word_not_D202EF8D :
  fst <$> main_crc 0x00000000 Mem.initial <> Some 0xD202EF8D.
Proof. vm_compute. discriminate. Qed.

(** C3, amended: [calculate_crc32] applied to the 4-byte little-endian
    representation of 0x00000000 (four zero bytes), with the table that
    [init_crc32_table] produces, returns 0x2144DF1C; 0xD202EF8D is the
    checksum of a single zero byte. *)
Theorem crc32_zero_word (t : Mem.table) :
  length t = 256%nat ->
  bytes_of_u32 0x00000000 = [x00; x00; x00; x00] /\
  main_crc 0x00000000 t = Some (0x2144DF1C, crc32_table) /\
  (do! init_crc32_table in calculate_crc32 [x00] 1)%mem t = Some (0xD202EF8D, crc32_table).
Proof.
  intros Ht. split; [reflexivity|].
  unfold main_crc, Mem.bind. rewrite (init_crc32_table_run t Ht).
  split; vm_compute; reflexivity.
Qed.

Lemma crc32_zero_word_witness :
  length Mem.initial = 256%nat /\
  main_crc 0x00000000 Mem.initial = Some (0x2144DF1C, crc32_table).
Proof.
  split; [reflexivity|].
  apply (crc32_zero_word Mem.initial). reflexivity.
Defined.

(** C4: on the empty input (length 0) [calculate_crc32] returns
    0x00000000; it is a result, not a failure, whatever the buffer and the
    table hold. *)
Theorem calculate_crc32_empty (t : Mem.table) (data : list byte) :
  calculate_crc32 data 0 t = Some (0x00000000, t).
Proof. reflexivity. Qed.

(** C5: after [init_crc32_table] has run, the entry at index 0 is 0. *)
Theorem init_crc32_table_entry_0 (t : Mem.table) :
  length t = 256%nat ->
  exists t', init_crc32_table t = Some (tt, t') /\ t' !! 0%nat = Some 0.
Proof.
  intros Ht. exists crc32_table. split; [now apply init_crc32_table_run|].
  reflexivity.
Qed.

Lemma init_crc32_table_entry_0_witness :
  length Mem.initial = 256%nat /\
  exists t', init_crc32_table Mem.initial = Some (tt, t') /\ t' !! 0%nat = Some 0.
Proof.
  split; [reflexivity|]. apply (init_crc32_table_entry_0 Mem.initial). reflexivity.
Defined.

(** C6: both operations are total on their valid inputs.  Every table
    index [(crc xor b) & 0xFF] that [calculate_crc32] computes lies in
    0..255, so with the 256-entry table and a buffer of at least [len]
    bytes neither [init_crc32_table] nor [calculate_crc32] reaches a
    failing access: both return a result. *)
Theorem crc32_total (t : Mem.table) (data : list byte) (len : nat) :
  length t = 256%nat -> (len <= length data)%nat ->
  (forall crc b, 0 <= table_index crc b <= 255) /\
  (forall crc b, is_Some (Mem.load (table_index crc b) t)) /\
  is_Some (init_crc32_table t) /\
  is_Some (calculate_crc32 data len t).
Proof.
  intros Ht Hlen. split; [exact table_index_range|]. split; [|split].
  - intros crc b. destruct (load_in_table t crc b Ht) as (e & _ & He). eauto.
  - rewrite init_crc32_table_run by exact Ht. eauto.
  - rewrite calculate_crc32_run by assumption. eauto.
Qed.

Lemma crc32_total_witness :
  length Mem.initial = 256%nat /\ (9 <= length check_input)%nat /\
  is_Some (init_crc32_table Mem.initial) /\
  is_Some (calculate_crc32 check_input 9 Mem.initial).
Proof.
  split; [reflexivity|]. split; [simpl; lia|].
  apply (crc32_total Mem.initial check_input 9); [reflexivity|simpl; lia].
Defined.

(** C7: the checksum is not XOR-homomorphic over concatenation: there are
    byte sequences [d1] and [d2] for which the checksum of [d1 ++ d2]
    differs from the XOR of the checksums of [d1] and of [d2]. *)
Theorem crc32_not_xor_homomorphic :
  exists (d1 d2 : list byte) (c1 c2 c12 : Z),
    crc32_of d1 = Some c1 /\ crc32_of d2 = Some c2 /\
    crc32_of (d1 ++ d2) = Some c12 /\ c12 <> Z.lxor c1 c2.
Proof.
  exists [x00], [x00], 0xD202EF8D, 0xD202EF8D, 0x41D912FF.
  repeat split; try (vm_compute; reflexivity). vm_compute. discriminate.
Qed.

(** C8: both operations are deterministic.  Whatever two 256-entry
    arrays [init_crc32_table] starts from, it leaves the same table, and
    running it a second time leaves that table again; calling
    [calculate_crc32] twice in a row on the same buffer and table gives
    the same 32-bit result both times and leaves the table as it was. *)
Theorem crc32_deterministic (t1 t2 : Mem.table) (data : list byte) (len : nat) :
  length t1 = 256%nat -> length t2 = 256%nat -> (len <= length data)%nat ->
  (exists tbl, length tbl = 256%nat /\
     init_crc32_table t1 = Some (tt, tbl) /\
     init_crc32_table t2 = Some (tt, tbl) /\
     (do! init_crc32_table in init_crc32_table)%mem t1 = Some (tt, tbl)) /\
  (exists c, calculate_crc32 data len t1 = Some (c, t1) /\
     (let! a := calculate_crc32 data len in
      let! b := calculate_crc32 data len in
      Mem.ret (a, b))%mem t1 = Some ((c, c), t1)).
Proof.
  intros H1 H2 Hlen. split.
  - exists crc32_table. split; [reflexivity|].
    rewrite !init_crc32_table_run by assumption. split; [reflexivity|].
    split; [reflexivity|].
    unfold Mem.bind. rewrite (init_crc32_table_run t1 H1).
    apply init_crc32_table_run. reflexivity.
  - eexists. split; [apply calculate_crc32_run; assumption|].
    unfold Mem.bind. rewrite !calculate_crc32_run by assumption. reflexivity.
Qed.

Lemma crc32_deterministic_witness :
  length Mem.initial = 256%nat /\ length crc32_table = 256%nat /\
  (9 <= length check_input)%nat /\
  exists c, calculate_crc32 check_input 9 Mem.initial = Some (c, Mem.initial) /\
     (let! a := calculate_crc32 check_input 9 in
      let! b := calculate_crc32 check_input 9 in
      Mem.ret (a, b))%mem Mem.initial = Some ((c, c), Mem.initial).
Proof.
  split; [reflexivity|]. split; [reflexivity|]. split; [simpl; lia|].
  apply (crc32_deterministic Mem.initial crc32_table check_input 9);
    [reflexivity|reflexivity|simpl; lia].
Defined.

(** C9: [generate_hamming] returns the same fixed value, 0, for every
    32-bit input: it is a stub whose result does not depend on its
    argument. *)
Theorem generate_hamming_constant (d1 d2 : Z) :
  generate_hamming d1 = generate_hamming d2 /\ generate_hamming d1 = 0.
Proof. split; reflexivity. Qed.

(** C10: checksums compose incrementally.  For all byte sequences [d1]
    and [d2], [calculate_crc32 (d1 ++ d2)] is the complement of the
    accumulator obtained by running the per-byte update over [d2] from
    the accumulator [~calculate_crc32 d1]; equivalently, the accumulator
    before the final complement after [d1 ++ d2] is the one reached by
    processing [d2] from the accumulator reached after [d1]. *)
Theorem calculate_crc32_app (t : Mem.table) (d1 d2 : list byte) :
  table_ok t ->
  exists c1 a1 acc,
    calculate_crc32 d1 (length d1) t = Some (c1, t) /\
    crc32_loop d2 (length d2) 0 (U32.not c1) t = Some (acc, t) /\
    acc = Spec.accumulate t (U32.not c1) d2 /\
    calculate_crc32 (d1 ++ d2) (length (d1 ++ d2)) t = Some (U32.not acc, t) /\
    crc32_loop d1 (length d1) 0 U32.max t = Some (a1, t) /\
    crc32_loop d2 (length d2) 0 a1 t = Some (acc, t) /\
    crc32_loop (d1 ++ d2) (length (d1 ++ d2)) 0 U32.max t = Some (acc, t).
Proof.
  intros [Ht Hr].
  set (a1 := Spec.accumulate t U32.max d1).
  assert (Ha1 : U32.in_range a1)
    by (apply accumulate_in_range; [exact Hr|exact max_in_range]).
  exists (U32.not a1), a1, (Spec.accumulate t a1 d2).
  rewrite (not_involutive a1 Ha1).
  rewrite !calculate_crc32_run by (trivial; lia).
  rewrite !crc32_loop_spec by (trivial; simpl; lia).
  rewrite !drop_0, !firstn_all, accumulate_app. fold a1.
  repeat split.
Qed.

Lemma calculate_crc32_app_witness :
  table_ok crc32_table /\
  exists c1 a1 acc,
    calculate_crc32 [x31; x32] 2 crc32_table = Some (c1, crc32_table) /\
    crc32_loop [x33] 1 0 (U32.not c1) crc32_table = Some (acc, crc32_table) /\
    acc = Spec.accumulate crc32_table (U32.not c1) [x33] /\
    calculate_crc32 [x31; x32; x33] 3 crc32_table = Some (U32.not acc, crc32_table) /\
    crc32_loop [x31; x32] 2 0 U32.max crc32_table = Some (a1, crc32_table) /\
    crc32_loop [x33] 1 0 a1 crc32_table = Some (acc, crc32_table) /\
    crc32_loop [x31; x32; x33] 3 0 U32.max crc32_table = Some (acc, crc32_table).
Proof.
  assert (Hok : table_ok crc32_table) by (apply (bool_decide_unpack _); vm_compute; exact I).
  split; [exact Hok|].
  exact (calculate_crc32_app crc32_table [x31; x32] [x33] Hok).
Defined.

(** ** Bit-level facts behind the further properties *)

Section Bits.

(* one step of a left fold, whatever the function *)
Lemma fold_left_step {A B} (f : A -> B -> A) (x : B) (l : list B) (a : A) :
  fold_left f (x :: l) a = fold_left f l (f a x).
Proof. reflexivity. Qed.

Lemma fold_left_one {A B} (f : A -> B -> A) (x : B) (a : A) :
  fold_left f [x] a = f a x.
Proof. reflexivity. Qed.

Lemma Some_eq {A} (x y : A) : Some x = Some y -> x = y.
Proof. congruence. Qed.

Lemma Some_fst_eq {A B} (x y : A) (u v : B) : Some (x, u) = Some (y, v) -> x = y.
Proof. congruence. Qed.

Lemma lxor_cancel_l a x y : Z.lxor a x = Z.lxor a y -> x = y.
Proof.
  intros H. apply (f_equal (Z.lxor a)) in H.
  now rewrite <- !Z.lxor_assoc, Z.lxor_nilpotent, !Z.lxor_0_l in H.
Qed.

Lemma lxor_cancel_r a x y : Z.lxor x a = Z.lxor y a -> x = y.
Proof. rewrite !(Z.lxor_comm _ a). apply lxor_cancel_l. Qed.

Lemma lxor_swap a b c d :
  Z.lxor (Z.lxor a b) (Z.lxor c d) = Z.lxor (Z.lxor a c) (Z.lxor b d).
Proof. xor_bits. Qed.

Lemma in_range_high x n : U32.in_range x -> 32 <= n -> Z.testbit x n = false.
Proof.
  unfold U32.in_range, U32.modulus. intros Hx Hn.
  rewrite <- (Z.mod_small x (2 ^ 32)) by exact Hx.
  apply Z.mod_pow2_bits_high. lia.
Qed.

Lemma shiftr_32 x : U32.in_range x -> Z.shiftr x 32 = 0.
Proof.
  intros Hx. bits n. apply in_range_high; [exact Hx|lia].
Qed.

Lemma ones_bit k n : 0 <= k -> 0 <= n -> Z.testbit (Z.ones k) n = (n <? k).
Proof.
  intros Hk Hn. destruct (Z.ltb_spec n k).
  - apply Z.ones_spec_low. lia.
  - apply Z.ones_spec_high. lia.
Qed.

(* the complement of a 32-bit value is its XOR with all-ones *)
Lemma not_lxor x : U32.in_range x -> U32.not x = Z.lxor x U32.max.
Proof.
  intros Hx. rewrite not_masked. unfold U32.max.
  change 0xFFFFFFFF with (Z.ones 32). bits n.
  rewrite Z.lnot_spec, ones_bit by lia.
  destruct (Z.ltb_spec n 32).
  - now destruct (Z.testbit x n).
  - rewrite (in_range_high x n Hx) by lia. reflexivity.
Qed.

Lemma not_inj x y : U32.in_range x -> U32.in_range y -> U32.not x = U32.not y -> x = y.
Proof.
  intros Hx Hy H. rewrite <- (not_involutive x Hx), <- (not_involutive y Hy).
  now rewrite H.
Qed.

(* a value is its high part, shifted back, XOR its low byte *)
Lemma split_low_byte x :
  x = Z.lxor (Z.shiftl (Z.shiftr x 8) 8) (Z.land x 0xFF).
Proof.
  change 0xFF with (Z.ones 8). bits n. rewrite ones_bit by lia.
  destruct (Z.ltb_spec n 8).
  - rewrite Z.shiftl_spec_low by lia. now rewrite Bool.andb_true_r.
  - rewrite Z.shiftl_spec, Z.shiftr_spec by lia.
    replace (n - 8 + 8) with n by lia.
    now rewrite Bool.andb_false_r, Bool.xorb_false_r.
Qed.

Lemma byte_val_range b : 0 <= byte_val b <= 255.
Proof. unfold byte_val. pose proof (Byte.to_N_bounded b). lia. Qed.

Lemma byte_val_inj a b : byte_val a = byte_val b -> a = b.
Proof.
  unfold byte_val. intros H. apply N2Z.inj in H.
  pose proof (Byte.of_to_N a) as Ha. rewrite H, Byte.of_to_N in Ha. congruence.
Qed.

Lemma byte_val_of_val v : 0 <= v <= 255 -> byte_val (byte_of_val v) = v.
Proof.
  intros Hv. unfold byte_of_val, byte_val.
  destruct (Byte.of_N (Z.to_N v)) as [b|] eqn:E.
  - apply Byte.to_of_N in E. rewrite E. lia.
  - apply Byte.of_N_None_iff in E. lia.
Qed.

Lemma low_byte_range x : 0 <= Z.land x 0xFF <= 255.
Proof.
  pose proof (table_index_range x 0) as H. unfold table_index in H.
  now rewrite Z.lxor_0_r in H.
Qed.

Lemma byte_shiftr_8 v : 0 <= v <= 255 -> Z.shiftr v 8 = 0.
Proof.
  intros Hv. rewrite Z.shiftr_div_pow2 by lia. change (2 ^ 8) with 256.
  apply Z.div_small. lia.
Qed.

Lemma byte_val_xor a b : byte_val (byte_xor a b) = Z.lxor (byte_val a) (byte_val b).
Proof.
  unfold byte_xor. apply byte_val_of_val.
  pose proof (byte_val_range a). pose proof (byte_val_range b).
  pose proof (lxor_bound 8 (byte_val a) (byte_val b)) as H1.
  change (2 ^ 8) with 256 in H1. lia.
Qed.

End Bits.

(** ** The shift-and-xor step and the table *)

Section BitSerial.

(* the step is linear over XOR *)
Lemma crc_step_lxor a b : crc_step (Z.lxor a b) = Z.lxor (crc_step a) (crc_step b).
Proof.
  rewrite !crc_step_conditional. unfold Spec.step.
  rewrite Z.lxor_spec, Z.shiftr_lxor.
  destruct (Z.testbit a 0), (Z.testbit b 0); cbn [xorb]; xor_bits.
Qed.

Lemma crc_bits_lxor j : forall a b,
  crc_bits j (Z.lxor a b) = Z.lxor (crc_bits j a) (crc_bits j b).
Proof.
  induction j as [|j IH]; intros a b; [reflexivity|].
  cbn [crc_bits]. now rewrite crc_step_lxor, IH.
Qed.

Lemma crc_bits_add j k : forall x, crc_bits (j + k) x = crc_bits k (crc_bits j x).
Proof.
  induction j as [|j IH]; intros x; [reflexivity|].
  cbn [Nat.add crc_bits]. apply IH.
Qed.

(* bits above the ones being consumed just move down *)
Lemma crc_bits_shiftl j : forall y, crc_bits j (Z.shiftl y (Z.of_nat j)) = y.
Proof.
  induction j as [|j IH]; intros y.
  - cbn. apply Z.shiftl_0_r.
  - cbn [crc_bits]. rewrite crc_step_conditional. unfold Spec.step.
    rewrite Z.shiftl_spec_low by lia.
    rewrite Z.shiftr_shiftl_l by lia.
    replace (Z.of_nat (S j) - 1) with (Z.of_nat j) by lia. apply IH.
Qed.

(* the step loses nothing: bit 31 of the result is the bit shifted out *)
Lemma crc_step_inj a b :
  U32.in_range a -> U32.in_range b -> crc_step a = crc_step b -> a = b.
Proof.
  intros Ha Hb H. rewrite !crc_step_conditional in H. unfold Spec.step in H.
  assert (Hhi : forall x, U32.in_range x -> Z.testbit (Z.shiftr x 1) 31 = false).
  { intros x Hx. rewrite Z.shiftr_spec by lia. apply in_range_high; [exact Hx|lia]. }
  assert (Hp : Z.testbit POLY 31 = true) by reflexivity.
  assert (Hsh : Z.shiftr a 1 = Z.shiftr b 1 /\ Z.testbit a 0 = Z.testbit b 0).
  { pose proof (f_equal (fun x => Z.testbit x 31) H) as H31. cbv beta in H31.
    destruct (Z.testbit a 0), (Z.testbit b 0);
      rewrite ?Z.lxor_spec, ?Hhi, ?Hp in H31 by assumption;
      try discriminate; split; try reflexivity.
    - eapply lxor_cancel_r, H.
    - exact H. }
  destruct Hsh as [Hs H0].
  apply Z.bits_inj'. intros n Hn.
  destruct (Z.eq_dec n 0) as [->|Hne]; [exact H0|].
  pose proof (f_equal (fun x => Z.testbit x (n - 1)) Hs) as Hb'. cbv beta in Hb'.
  rewrite !Z.shiftr_spec in Hb' by lia.
  now replace (n - 1 + 1) with n in Hb' by lia.
Qed.

Lemma crc_bits_inj j : forall a b,
  U32.in_range a -> U32.in_range b -> crc_bits j a = crc_bits j b -> a = b.
Proof.
  induction j as [|j IH]; intros a b Ha Hb H; [exact H|].
  cbn [crc_bits] in H. apply IH in H; try now apply crc_step_in_range.
  now apply crc_step_inj.
Qed.

(* what a table entry is, at any in-range index *)
Lemma crc32_table_nth i :
  0 <= i <= 255 -> nth (Z.to_nat i) crc32_table 0 = crc_bits 8 i.
Proof.
  intros Hi. apply nth_lookup_Some. rewrite crc32_table_lookup.
  destruct (decide (Z.to_nat i < 256)%nat) as [_|Hn]; [|lia].
  rewrite Z2Nat.id by lia. rewrite wrap_small; [reflexivity|].
  unfold U32.in_range, U32.modulus. lia.
Qed.

(* one table lookup does the work of eight steps *)
Lemma table_lookup_bitwise x :
  Z.lxor (Z.shiftr x 8) (nth (Z.to_nat (Z.land x 0xFF)) crc32_table 0) = crc_bits 8 x.
Proof.
  rewrite crc32_table_nth by apply low_byte_range.
  rewrite (split_low_byte x) at 3. rewrite crc_bits_lxor.
  now rewrite (crc_bits_shiftl 8).
Qed.

Lemma update_bitwise acc b :
  Spec.update crc32_table acc (byte_val b) = bitwise_update acc b.
Proof.
  unfold Spec.update, bitwise_update. rewrite <- table_lookup_bitwise.
  rewrite Z.shiftr_lxor, (byte_shiftr_8 (byte_val b)) by apply byte_val_range.
  now rewrite Z.lxor_0_r.
Qed.

Lemma accumulate_bitwise data : forall acc,
  Spec.accumulate crc32_table acc data = fold_left bitwise_update data acc.
Proof.
  unfold Spec.accumulate.
  induction data as [|b data IH]; intros acc; [reflexivity|].
  rewrite map_cons, !fold_left_step, update_bitwise. apply IH.
Qed.

Lemma bitwise_update_in_range acc b :
  U32.in_range acc -> U32.in_range (bitwise_update acc b).
Proof.
  intros Ha. apply crc_bits_in_range, lxor_in_range; [exact Ha|].
  pose proof (byte_val_range b). unfold U32.in_range, U32.modulus. lia.
Qed.

Lemma bitwise_fold_in_range data : forall acc,
  U32.in_range acc -> U32.in_range (fold_left bitwise_update data acc).
Proof.
  induction data as [|b data IH]; intros acc Ha; [exact Ha|].
  rewrite fold_left_step. apply IH, bitwise_update_in_range, Ha.
Qed.

Lemma bitwise_update_inj_acc a1 a2 b :
  U32.in_range a1 -> U32.in_range a2 ->
  bitwise_update a1 b = bitwise_update a2 b -> a1 = a2.
Proof.
  intros H1 H2. unfold bitwise_update. intros H.
  assert (Hb : U32.in_range (byte_val b)).
  { pose proof (byte_val_range b). unfold U32.in_range, U32.modulus. lia. }
  apply crc_bits_inj in H; try now apply lxor_in_range.
  eapply lxor_cancel_r, H.
Qed.

Lemma bitwise_update_inj_byte a b1 b2 :
  U32.in_range a -> bitwise_update a b1 = bitwise_update a b2 -> b1 = b2.
Proof.
  intros Ha. unfold bitwise_update. intros H.
  assert (Hb : forall b, U32.in_range (byte_val b)).
  { intros b. pose proof (byte_val_range b). unfold U32.in_range, U32.modulus. lia. }
  apply crc_bits_inj in H; try now apply lxor_in_range.
  apply byte_val_inj. eapply lxor_cancel_l, H.
Qed.

Lemma bitwise_fold_inj data : forall a1 a2,
  U32.in_range a1 -> U32.in_range a2 ->
  fold_left bitwise_update data a1 = fold_left bitwise_update data a2 -> a1 = a2.
Proof.
  induction data as [|b data IH]; intros a1 a2 H1 H2 H; [exact H|].
  rewrite !fold_left_step in H.
  apply IH in H; [|apply bitwise_update_in_range, H1|apply bitwise_update_in_range, H2].
  exact (bitwise_update_inj_acc a1 a2 b H1 H2 H).
Qed.

(* the program from its start, on a whole buffer *)
Lemma crc32_of_run data :
  crc32_of data = Some (U32.not (Spec.accumulate crc32_table U32.max data)).
Proof.
  unfold crc32_of, Mem.bind.
  rewrite init_crc32_table_run by reflexivity.
  rewrite calculate_crc32_run by (trivial; reflexivity).
  now rewrite firstn_all.
Qed.

(* equal checksums after a common suffix come from equal checksums before it *)
Lemma crc32_of_suffix_cancel (d1 d2 s : list byte) :
  crc32_of (d1 ++ s) = crc32_of (d2 ++ s) -> crc32_of d1 = crc32_of d2.
Proof.
  rewrite !crc32_of_run, !accumulate_app, !accumulate_bitwise. intros H.
  apply Some_eq in H. do 2 f_equal.
  assert (Hr : forall d, U32.in_range (fold_left bitwise_update d U32.max))
    by (intros d; apply bitwise_fold_in_range, max_in_range).
  apply not_inj in H; try now apply bitwise_fold_in_range.
  now apply bitwise_fold_inj in H.
Qed.

End BitSerial.

(** ** Further properties of the table and the checksum *)

(** X1: the table lookup of [calculate_crc32] computes the bit-serial
    CRC: after [init_crc32_table], [calculate_crc32 data len] returns the
    complement of the accumulator obtained from 0xFFFFFFFF by XORing each
    of the first [len] bytes into it and running the shift-and-xor step of
    [init_crc32_table] eight times. *)
Theorem calculate_crc32_bitwise (t : Mem.table) (data : list byte) (len : nat) :
  length t = 256%nat -> (len <= length data)%nat ->
  (do! init_crc32_table in calculate_crc32 data len)%mem t =
  Some (crc32_bitwise (take len data), crc32_table).
Proof.
  intros Ht Hlen. unfold Mem.bind. rewrite (init_crc32_table_run t Ht).
  rewrite calculate_crc32_run by (trivial; reflexivity).
  now rewrite accumulate_bitwise.
Qed.

Lemma calculate_crc32_bitwise_witness :
  length Mem.initial = 256%nat /\ (4 <= length check_input)%nat /\
  (do! init_crc32_table in calculate_crc32 check_input 4)%mem Mem.initial =
  Some (crc32_bitwise (take 4 check_input), crc32_table).
Proof.
  split; [reflexivity|]. split; [simpl; lia|].
  apply (calculate_crc32_bitwise Mem.initial check_input 4); [reflexivity|simpl; lia].
Defined.

(** X2: the table that [init_crc32_table] builds is linear over XOR: the
    entry at index [i xor j] is the XOR of the entries at [i] and [j]. *)
Theorem init_crc32_table_linear (t : Mem.table) (i j : Z) :
  length t = 256%nat -> 0 <= i <= 255 -> 0 <= j <= 255 ->
  exists t' ei ej,
    init_crc32_table t = Some (tt, t') /\
    t' !! Z.to_nat i = Some ei /\ t' !! Z.to_nat j = Some ej /\
    t' !! Z.to_nat (Z.lxor i j) = Some (Z.lxor ei ej).
Proof.
  intros Ht Hi Hj.
  assert (Hij : 0 <= Z.lxor i j <= 255).
  { pose proof (lxor_bound 8 i j) as H. change (2 ^ 8) with 256 in H. lia. }
  assert (Hl : forall k, 0 <= k <= 255 -> crc32_table !! Z.to_nat k = Some (crc_bits 8 k)).
  { intros k Hk. rewrite crc32_table_lookup.
    destruct (decide (Z.to_nat k < 256)%nat) as [_|Hn]; [|lia].
    rewrite Z2Nat.id by lia. rewrite wrap_small; [reflexivity|].
    unfold U32.in_range, U32.modulus. lia. }
  exists crc32_table, (crc_bits 8 i), (crc_bits 8 j).
  split; [now apply init_crc32_table_run|].
  rewrite !Hl by assumption. now rewrite crc_bits_lxor.
Qed.

Lemma init_crc32_table_linear_witness :
  length Mem.initial = 256%nat /\ 0 <= 0x35 <= 255 /\ 0 <= 0xC4 <= 255 /\
  exists t' ei ej,
    init_crc32_table Mem.initial = Some (tt, t') /\
    t' !! Z.to_nat 0x35 = Some ei /\ t' !! Z.to_nat 0xC4 = Some ej /\
    t' !! Z.to_nat (Z.lxor 0x35 0xC4) = Some (Z.lxor ei ej).
Proof.
  split; [reflexivity|]. split; [lia|]. split; [lia|].
  apply (init_crc32_table_linear Mem.initial 0x35 0xC4); [reflexivity|lia|lia].
Defined.

(** X3: appending the same bytes to two buffers neither creates nor
    removes a collision: the checksums of [d1 ++ s] and [d2 ++ s] are equal
    exactly when the checksums of [d1] and [d2] are. *)
Theorem crc32_common_suffix (d1 d2 s : list byte) :
  crc32_of (d1 ++ s) = crc32_of (d2 ++ s) <-> crc32_of d1 = crc32_of d2.
Proof.
  split; [apply crc32_of_suffix_cancel|].
  rewrite !crc32_of_run, !accumulate_app. intros H.
  apply Some_eq in H.
  apply not_inj in H; try (apply accumulate_in_range;
    [apply crc32_table_ok|apply max_in_range]).
  now rewrite H.
Qed.

(** X4: a change of one byte is always detected: two buffers that differ
    in exactly one position have different checksums. *)
Theorem crc32_single_byte_change (p s : list byte) (b1 b2 : byte) :
  b1 <> b2 -> crc32_of (p ++ b1 :: s) <> crc32_of (p ++ b2 :: s).
Proof.
  intros Hne H. apply Hne.
  rewrite !(cons_middle _ p s), !app_assoc in H.
  apply crc32_of_suffix_cancel in H.
  rewrite !crc32_of_run, !accumulate_app, !accumulate_bitwise in H.
  apply Some_eq in H. rewrite !fold_left_one in H.
  assert (Ha : U32.in_range (fold_left bitwise_update p U32.max))
    by apply bitwise_fold_in_range, max_in_range.
  apply not_inj in H; [|apply bitwise_update_in_range, Ha..].
  exact (bitwise_update_inj_byte _ b1 b2 Ha H).
Qed.

Lemma crc32_single_byte_change_witness :
  x31 <> x33 /\ crc32_of ([x30] ++ x31 :: [x32]) <> crc32_of ([x30] ++ x33 :: [x32]).
Proof.
  assert (H : x31 <> x33) by discriminate.
  split; [exact H|]. exact (crc32_single_byte_change [x30] [x32] x31 x33 H).
Defined.

(** ** Words, their bytes, and shifting a difference through the update *)

Section Words.

Lemma bytes_of_u32_vals x :
  map byte_val (bytes_of_u32 x) =
  [Z.land x 0xFF; Z.land (Z.shiftr x 8) 0xFF;
   Z.land (Z.shiftr x 16) 0xFF; Z.land (Z.shiftr x 24) 0xFF].
Proof.
  unfold bytes_of_u32. cbn [map]. change (8 * 0) with 0. change (8 * 1) with 8.
  change (8 * 2) with 16. change (8 * 3) with 24. rewrite Z.shiftr_0_r.
  repeat match goal with
  | |- context [byte_val (match Byte.of_N (Z.to_N ?v) with Some b => b | None => _ end)] =>
      change (match Byte.of_N (Z.to_N v) with Some b => b | None => x00 end)
        with (byte_of_val v);
      rewrite (byte_val_of_val v) by apply low_byte_range
  end.
  reflexivity.
Qed.

Lemma low_byte_lxor a b :
  Z.land (Z.lxor a b) 0xFF = Z.lxor (Z.land a 0xFF) (Z.land b 0xFF).
Proof. bits n. now destruct (Z.testbit a n), (Z.testbit b n), (Z.testbit 255 n). Qed.

(* a difference [d] of the accumulators, met by the difference [d & 0xFF]
   of the bytes, leaves the table index alone and comes out shifted *)
Lemma update_shift (t : Mem.table) a d b :
  Spec.update t (Z.lxor a d) (Z.lxor b (Z.land d 0xFF)) =
  Z.lxor (Spec.update t a b) (Z.shiftr d 8).
Proof.
  unfold Spec.update.
  assert (Hi : Z.land (Z.lxor (Z.lxor a d) (Z.lxor b (Z.land d 0xFF))) 0xFF =
               Z.land (Z.lxor a b) 0xFF).
  { bits n. destruct (Z.testbit a n), (Z.testbit b n), (Z.testbit d n),
      (Z.testbit 255 n); reflexivity. }
  rewrite Hi, Z.shiftr_lxor. xor_bits.
Qed.

Lemma accumulate_word_shift (t : Mem.table) a d w :
  Spec.accumulate t (Z.lxor a d) (bytes_of_u32 (Z.lxor w d)) =
  Z.lxor (Spec.accumulate t a (bytes_of_u32 w)) (Z.shiftr d 32).
Proof.
  unfold Spec.accumulate. rewrite !bytes_of_u32_vals. cbn [fold_left].
  rewrite !Z.shiftr_lxor, !low_byte_lxor.
  rewrite update_shift.
  rewrite update_shift, Z.shiftr_shiftr by lia.
  rewrite update_shift, Z.shiftr_shiftr by lia.
  rewrite update_shift, Z.shiftr_shiftr by lia.
  reflexivity.
Qed.

Lemma bitwise_zero_word s :
  Spec.accumulate crc32_table s (bytes_of_u32 0) = crc_bits 32 s.
Proof.
  rewrite accumulate_bitwise. change (bytes_of_u32 0) with [x00; x00; x00; x00].
  cbn [fold_left]. unfold bitwise_update. change (byte_val x00) with 0.
  rewrite !Z.lxor_0_r. now rewrite <- !crc_bits_add.
Qed.

Lemma take_bytes_of_u32 x : take 4 (bytes_of_u32 x) = bytes_of_u32 x.
Proof. reflexivity. Qed.

Lemma accumulate_word x :
  U32.in_range x ->
  Spec.accumulate crc32_table U32.max (bytes_of_u32 x) =
  crc_bits 32 (Z.lxor U32.max x).
Proof.
  intros Hx.
  pose proof (accumulate_word_shift crc32_table (Z.lxor U32.max x) x 0) as H.
  rewrite Z.lxor_0_l, Z.lxor_assoc, Z.lxor_nilpotent, Z.lxor_0_r in H.
  rewrite H, (shiftr_32 x Hx), Z.lxor_0_r. apply bitwise_zero_word.
Qed.

(* from any accumulator, the bytes of its complement lead to one state *)
Lemma accumulate_own_complement A :
  U32.in_range A ->
  Spec.accumulate crc32_table A (bytes_of_u32 (U32.not A)) = crc_bits 32 U32.max.
Proof.
  intros HA.
  pose proof (accumulate_word_shift crc32_table U32.max (U32.not A) 0) as H.
  rewrite Z.lxor_0_l in H.
  assert (HAd : Z.lxor U32.max (U32.not A) = A).
  { rewrite (not_lxor A HA). rewrite (Z.lxor_comm A), <- Z.lxor_assoc.
    now rewrite Z.lxor_nilpotent, Z.lxor_0_l. }
  rewrite HAd in H. rewrite H, (shiftr_32 (U32.not A)) by apply not_in_range.
  rewrite Z.lxor_0_r. apply bitwise_zero_word.
Qed.

End Words.

(** X5: appending the checksum of a buffer to it, as the four bytes main
    would read from the stored word, always gives a buffer whose checksum
    is the constant 0x2144DF1C. *)
Theorem crc32_residue (m : list byte) :
  exists c, crc32_of m = Some c /\
            crc32_of (m ++ bytes_of_u32 c) = Some 0x2144DF1C.
Proof.
  eexists. split; [apply crc32_of_run|].
  rewrite crc32_of_run, accumulate_app.
  rewrite accumulate_own_complement
    by (apply accumulate_in_range; [apply crc32_table_ok|apply max_in_range]).
  reflexivity.
Qed.

(** X6: for a 32-bit word [x], what main computes, the table-driven
    checksum of the four bytes of [x], is the complement of 32 shift-and-xor
    steps applied to [x xor 0xFFFFFFFF]. *)
Theorem main_crc_bitwise (t : Mem.table) (x : Z) :
  length t = 256%nat -> U32.in_range x ->
  main_crc x t = Some (U32.not (crc_bits 32 (Z.lxor U32.max x)), crc32_table).
Proof.
  intros Ht Hx. unfold main_crc, Mem.bind. rewrite (init_crc32_table_run t Ht).
  rewrite calculate_crc32_run by (trivial; reflexivity).
  rewrite take_bytes_of_u32, (accumulate_word x Hx). reflexivity.
Qed.

Lemma main_crc_bitwise_witness :
  length Mem.initial = 256%nat /\ U32.in_range 0x12345678 /\
  main_crc 0x12345678 Mem.initial =
  Some (U32.not (crc_bits 32 (Z.lxor U32.max 0x12345678)), crc32_table).
Proof.
  assert (Hx : U32.in_range 0x12345678) by (unfold U32.in_range, U32.modulus; lia).
  split; [reflexivity|]. split; [exact Hx|].
  exact (main_crc_bitwise Mem.initial 0x12345678 eq_refl Hx).
Defined.

(** X7: main's checksum is injective on 32-bit words: two different words
    never get the same CRC. *)
Theorem main_crc_injective (t : Mem.table) (x y : Z) :
  length t = 256%nat -> U32.in_range x -> U32.in_range y ->
  main_crc x t = main_crc y t -> x = y.
Proof.
  intros Ht Hx Hy. unfold main_crc, Mem.bind. rewrite (init_crc32_table_run t Ht).
  rewrite !calculate_crc32_run by (trivial; reflexivity).
  rewrite !take_bytes_of_u32, (accumulate_word x Hx), (accumulate_word y Hy).
  intros H. apply Some_fst_eq in H.
  assert (Hr : forall z, U32.in_range z -> U32.in_range (Z.lxor U32.max z))
    by (intros z Hz; apply lxor_in_range; [apply max_in_range|exact Hz]).
  apply not_inj in H; [|apply crc_bits_in_range, Hr; assumption..].
  apply crc_bits_inj in H; [|apply Hr; assumption..].
  exact (lxor_cancel_l _ _ _ H).
Qed.

Lemma main_crc_injective_witness :
  length Mem.initial = 256%nat /\ U32.in_range 0xDEADBEEF /\ U32.in_range 0xDEADBEEF /\
  main_crc 0xDEADBEEF Mem.initial = main_crc 0xDEADBEEF Mem.initial /\
  0xDEADBEEF = 0xDEADBEEF.
Proof.
  assert (Hx : U32.in_range 0xDEADBEEF) by (unfold U32.in_range, U32.modulus; lia).
  split; [reflexivity|]. split; [exact Hx|]. split; [exact Hx|].
  split; [reflexivity|].
  exact (main_crc_injective Mem.initial 0xDEADBEEF 0xDEADBEEF eq_refl Hx Hx eq_refl).
Defined.

(** ** Buffers: XOR, bounds, and the table before it is built *)

Section Buffers.

Lemma xor_bytes_cons x y a b :
  xor_bytes (x :: a) (y :: b) = byte_xor x y :: xor_bytes a b.
Proof. reflexivity. Qed.

Lemma replicate_succ {A} (n : nat) (x : A) : replicate (S n) x = x :: replicate n x.
Proof. reflexivity. Qed.

Lemma bitwise_update_xor sa sb sz x y :
  bitwise_update (Z.lxor (Z.lxor sa sb) sz) (byte_xor x y) =
  Z.lxor (Z.lxor (bitwise_update sa x) (bitwise_update sb y)) (bitwise_update sz x00).
Proof.
  unfold bitwise_update. rewrite byte_val_xor, <- !crc_bits_lxor. f_equal.
  change (byte_val x00) with 0. xor_bits.
Qed.

Lemma bitwise_fold_xor a : forall b sa sb sz,
  length a = length b ->
  fold_left bitwise_update (xor_bytes a b) (Z.lxor (Z.lxor sa sb) sz) =
  Z.lxor (Z.lxor (fold_left bitwise_update a sa) (fold_left bitwise_update b sb))
         (fold_left bitwise_update (replicate (length a) x00) sz).
Proof.
  induction a as [|x a IH]; intros [|y b] sa sb sz Hl; try discriminate.
  - reflexivity.
  - rewrite xor_bytes_cons, length_cons, replicate_succ, !fold_left_step.
    rewrite bitwise_update_xor. apply IH. now injection Hl.
Qed.

Lemma not_lxor3 a b c :
  U32.in_range a -> U32.in_range b -> U32.in_range c ->
  U32.not (Z.lxor (Z.lxor a b) c) = Z.lxor (Z.lxor (U32.not a) (U32.not b)) (U32.not c).
Proof.
  intros Ha Hb Hc.
  rewrite !not_lxor; try assumption; [xor_bits|].
  now repeat apply lxor_in_range.
Qed.

(* only data[i .. i+n-1] is read *)
Lemma crc32_loop_ext (data data' : list byte) n : forall i crc (t : Mem.table),
  (forall k, (i <= k < i + n)%nat -> data !! k = data' !! k) ->
  crc32_loop data n i crc t = crc32_loop data' n i crc t.
Proof.
  induction n as [|n IH]; intros i crc t H; [reflexivity|].
  cbn [crc32_loop]. unfold Mem.bind at 1 3. unfold Mem.load_u8.
  rewrite <- (H i) by lia. destruct (data !! i) as [b|]; [|reflexivity].
  unfold Mem.bind at 1 2.
  destruct (Mem.load (table_index crc (byte_val b)) t) as [[e t']|]; [|reflexivity].
  apply IH. intros k Hk. apply H. lia.
Qed.

(* a loop that runs past the end of the buffer faults *)
Lemma crc32_loop_overrun (data : list byte) n : forall i crc (t : Mem.table),
  (i <= length data < i + n)%nat -> crc32_loop data n i crc t = None.
Proof.
  induction n as [|n IH]; intros i crc t H; [lia|].
  cbn [crc32_loop]. unfold Mem.bind at 1. unfold Mem.load_u8.
  destruct (data !! i) as [b|] eqn:Eb; [|reflexivity].
  apply lookup_lt_Some in Eb.
  unfold Mem.bind at 1.
  destruct (Mem.load (table_index crc (byte_val b)) t) as [[e t']|]; [|reflexivity].
  apply IH. lia.
Qed.

Lemma nth_initial k : nth k Mem.initial 0 = 0.
Proof.
  rewrite nth_lookup. destruct (Mem.initial !! k) as [v|] eqn:E; [|reflexivity].
  apply lookup_replicate in E. cbn. tauto.
Qed.

(* with the table still all zero each byte only shifts the accumulator *)
Lemma accumulate_initial data : forall acc,
  Spec.accumulate Mem.initial acc data = Z.shiftr acc (8 * Z.of_nat (length data)).
Proof.
  unfold Spec.accumulate.
  induction data as [|b data IH]; intros acc.
  - cbn [map fold_left length]. change (8 * Z.of_nat 0) with 0.
    now rewrite Z.shiftr_0_r.
  - rewrite map_cons, fold_left_step, IH. unfold Spec.update.
    rewrite nth_initial, Z.lxor_0_r, Z.shiftr_shiftr by lia.
    f_equal. rewrite length_cons. lia.
Qed.

End Buffers.

(** X8: the checksum is affine over XOR: for two buffers of the same
    length, the checksum of their bytewise XOR is the XOR of their two
    checksums and of the checksum of the all-zero buffer of that length. *)
Theorem crc32_xor_affine (a b : list byte) :
  length a = length b ->
  exists ca cb cz,
    crc32_of a = Some ca /\ crc32_of b = Some cb /\
    crc32_of (replicate (length a) x00) = Some cz /\
    crc32_of (xor_bytes a b) = Some (Z.lxor (Z.lxor ca cb) cz).
Proof.
  intros Hl. do 3 eexists.
  rewrite !crc32_of_run, !accumulate_bitwise.
  split; [reflexivity|]. split; [reflexivity|]. split; [reflexivity|].
  f_equal.
  rewrite <- not_lxor3 by apply bitwise_fold_in_range, max_in_range.
  f_equal. rewrite <- (bitwise_fold_xor a b _ _ _ Hl). f_equal.
Qed.

Lemma crc32_xor_affine_witness :
  length [x31; x32] = length [x41; x42] /\
  exists ca cb cz,
    crc32_of [x31; x32] = Some ca /\ crc32_of [x41; x42] = Some cb /\
    crc32_of (replicate (length [x31; x32]) x00) = Some cz /\
    crc32_of (xor_bytes [x31; x32] [x41; x42]) = Some (Z.lxor (Z.lxor ca cb) cz).
Proof.
  split; [reflexivity|]. exact (crc32_xor_affine [x31; x32] [x41; x42] eq_refl).
Defined.

(** X9: [calculate_crc32] reads the bytes 0 .. len-1 and no others: on
    two buffers with the same first [len] bytes it behaves the same. *)
Theorem calculate_crc32_prefix (t : Mem.table) (data data' : list byte) (len : nat) :
  take len data = take len data' ->
  calculate_crc32 data len t = calculate_crc32 data' len t.
Proof.
  intros H. unfold calculate_crc32, Mem.bind.
  rewrite (crc32_loop_ext data data' len 0 U32.max t); [reflexivity|].
  intros k Hk.
  rewrite <- (lookup_take_lt data len k), <- (lookup_take_lt data' len k) by lia.
  now rewrite H.
Qed.

Lemma calculate_crc32_prefix_witness :
  take 2 [x31; x32; x33] = take 2 [x31; x32; x34; x35] /\
  calculate_crc32 [x31; x32; x33] 2 crc32_table =
  calculate_crc32 [x31; x32; x34; x35] 2 crc32_table.
Proof.
  split; [reflexivity|].
  exact (calculate_crc32_prefix crc32_table [x31; x32; x33] [x31; x32; x34; x35] 2 eq_refl).
Defined.

(** X10: [calculate_crc32] reads every one of the bytes 0 .. len-1: with
    the 256-entry table it returns a result exactly when the buffer holds
    at least [len] bytes, and otherwise reads past the end of the buffer. *)
Theorem calculate_crc32_bounds (t : Mem.table) (data : list byte) (len : nat) :
  length t = 256%nat ->
  (is_Some (calculate_crc32 data len t) <-> (len <= length data)%nat).
Proof.
  intros Ht. split.
  - intros [r Hr]. destruct (le_lt_dec len (length data)) as [Hle|Hlt]; [exact Hle|].
    unfold calculate_crc32, Mem.bind in Hr.
    rewrite crc32_loop_overrun in Hr by lia. discriminate.
  - intros Hle. rewrite calculate_crc32_run by assumption. eauto.
Qed.

Lemma calculate_crc32_bounds_witness :
  length crc32_table = 256%nat /\
  (is_Some (calculate_crc32 [x31; x32] 3 crc32_table) <-> (3 <= length [x31; x32])%nat).
Proof.
  split; [reflexivity|].
  exact (calculate_crc32_bounds crc32_table [x31; x32] 3 eq_refl).
Defined.

(** X11: if [calculate_crc32] is called before [init_crc32_table], while
    the table is still all zero, the result does not depend on the bytes of
    the buffer: it is the complement of 0xFFFFFFFF shifted right by
    [8 * len], which is 0xFFFFFFFF as soon as [len >= 4]. *)
Theorem calculate_crc32_uninitialised (data : list byte) (len : nat) :
  (len <= length data)%nat ->
  calculate_crc32 data len Mem.initial =
    Some (U32.not (Z.shiftr U32.max (8 * Z.of_nat len)), Mem.initial) /\
  ((4 <= len)%nat -> calculate_crc32 data len Mem.initial = Some (0xFFFFFFFF, Mem.initial)).
Proof.
  intros Hle.
  assert (H : calculate_crc32 data len Mem.initial =
              Some (U32.not (Z.shiftr U32.max (8 * Z.of_nat len)), Mem.initial)).
  { rewrite calculate_crc32_run by (trivial; reflexivity).
    rewrite accumulate_initial, length_take_le by exact Hle. reflexivity. }
  split; [exact H|]. intros H4. rewrite H. do 2 f_equal.
  replace (Z.shiftr U32.max (8 * Z.of_nat len)) with 0; [reflexivity|].
  symmetry. apply Z.shiftr_eq_0; [unfold U32.max; lia|].
  change (Z.log2 U32.max) with 31. lia.
Qed.

Lemma calculate_crc32_uninitialised_witness :
  (4 <= length check_input)%nat /\
  calculate_crc32 check_input 4 Mem.initial =
    Some (U32.not (Z.shiftr U32.max (8 * Z.of_nat 4)), Mem.initial).
Proof.
  assert (H : (4 <= length check_input)%nat) by (simpl; lia).
  split; [exact H|]. exact (proj1 (calculate_crc32_uninitialised check_input 4 H)).
Defined.

(** ** The binary rendering *)

Section Binary.

Lemma print_bit x j :
  0 <= j ->
  print_d (Z.land (Z.shiftr x j) 1) = [if Z.testbit x j then "1"%char else "0"%char].
Proof.
  intros Hj. rewrite land_1_b2z, Z.shiftr_spec by lia. rewrite Z.add_0_l.
  now destruct (Z.testbit x j).
Qed.

Lemma read_separator (j acc : Z) :
  fold_left read_digit (if Z.rem j 8 =? 0 then [" "%char] else []) acc = acc.
Proof. now destruct (Z.rem j 8 =? 0). Qed.

Lemma binary_loop_succ n x :
  binary_loop (S n) x =
  print_d (Z.land (Z.shiftr x (Z.of_nat n)) 1) ++
  (if Z.rem (Z.of_nat n) 8 =? 0 then [" "%char] else []) ++ binary_loop n x.
Proof. reflexivity. Qed.

(* the digits read back give the low [n] bits *)
Lemma binary_loop_read n : forall x acc,
  fold_left read_digit (binary_loop n x) acc = acc * 2 ^ Z.of_nat n + x mod 2 ^ Z.of_nat n.
Proof.
  induction n as [|n IH]; intros x acc.
  - cbn [binary_loop fold_left]. change (2 ^ Z.of_nat 0) with 1.
    rewrite Z.mod_1_r. lia.
  - rewrite binary_loop_succ, !fold_left_app, read_separator, IH.
    rewrite print_bit by lia.
    assert (Hd : fold_left read_digit [if Z.testbit x (Z.of_nat n) then "1"%char else "0"%char] acc
                 = 2 * acc + Z.b2z (Z.testbit x (Z.of_nat n)))
      by (destruct (Z.testbit x (Z.of_nat n)); cbn; lia).
    rewrite Hd, Z.testbit_spec' by lia.
    rewrite Nat2Z.inj_succ, Z.pow_succ_r by lia.
    rewrite (Z.mul_comm 2 (2 ^ Z.of_nat n)).
    rewrite (Z.rem_mul_r x (2 ^ Z.of_nat n) 2) by lia. lia.
Qed.

(* the length of the line does not depend on the word *)
Lemma binary_loop_length n : forall x,
  length (binary_loop n x) = length (binary_loop n 0).
Proof.
  induction n as [|n IH]; intros x; [reflexivity|].
  rewrite !binary_loop_succ, !length_app, !print_bit by lia.
  now rewrite (IH x).
Qed.



End Binary.

(** X12: the 32 digits that main writes for a word, read back most
    significant first with the spaces skipped, give the word again; the
    line has 36 characters. *)
Theorem binary_digits_read (x : Z) :
  U32.in_range x ->
  read_binary (binary_digits x) = x /\ length (binary_digits x) = 36%nat.
Proof.
  intros Hx. unfold read_binary, binary_digits. split.
  - rewrite binary_loop_read. change (2 ^ Z.of_nat 32) with U32.modulus.
    rewrite Z.mul_0_l, Z.add_0_l. apply (wrap_small x Hx).
  - rewrite binary_loop_length. vm_compute. reflexivity.
Qed.

Lemma binary_digits_read_witness :
  U32.in_range 0x12345678 /\
  read_binary (binary_digits 0x12345678) = 0x12345678 /\
  length (binary_digits 0x12345678) = 36%nat.
Proof.
  assert (Hx : U32.in_range 0x12345678) by (unfold U32.in_range, U32.modulus; lia).
  split; [exact Hx|]. exact (binary_digits_read 0x12345678 Hx).
Defined.


Section BinarySample.

Import (notations) String.

Example binary_digits_sample :
  binary_digits 0x12345678 =
  String.list_ascii_of_string "00010010 00110100 01010110 01111000 "%string.
Proof. vm_compute. reflexivity. Qed.

End BinarySample.

(** X14: no two of the 256 entries that [init_crc32_table] writes are
    equal. *)
Theorem init_crc32_table_injective (t : Mem.table) (i j : Z) :
  length t = 256%nat -> 0 <= i <= 255 -> 0 <= j <= 255 ->
  exists t', init_crc32_table t = Some (tt, t') /\
             (t' !! Z.to_nat i = t' !! Z.to_nat j -> i = j).
Proof.
  intros Ht Hi Hj. exists crc32_table. split; [now apply init_crc32_table_run|].
  assert (Hr : forall k, 0 <= k <= 255 -> U32.in_range k)
    by (intros k Hk; unfold U32.in_range, U32.modulus; lia).
  assert (Hl : forall k, 0 <= k <= 255 -> crc32_table !! Z.to_nat k = Some (crc_bits 8 k)).
  { intros k Hk. rewrite crc32_table_lookup.
    destruct (decide (Z.to_nat k < 256)%nat) as [_|Hn]; [|lia].
    rewrite Z2Nat.id by lia. now rewrite wrap_small by apply Hr, Hk. }
  rewrite (Hl i Hi), (Hl j Hj). intros H. apply Some_eq in H.
  exact (crc_bits_inj 8 i j (Hr i Hi) (Hr j Hj) H).
Qed.

Lemma init_crc32_table_injective_witness :
  length Mem.initial = 256%nat /\ 0 <= 7 <= 255 /\ 0 <= 200 <= 255 /\
  exists t', init_crc32_table Mem.initial = Some (tt, t') /\
             (t' !! Z.to_nat 7 = t' !! Z.to_nat 200 -> 7 = 200).
Proof.
  split; [reflexivity|]. split; [lia|]. split; [lia|].
  apply (init_crc32_table_injective Mem.initial 7 200); [reflexivity|lia|lia].
Defined.
